(** * ai-info-rss-feed: feed registry and site constants

    A shallow embedding of [src/resources/feed-info-list.ts] and
    [src/common/constants.ts], and the properties of the feed registry and
    of the site configuration object that are established about them. *)

From Stdlib Require Import ZArith NArith Ascii String List Lia.
From stdpp Require Import gmap list.
Import ListNotations.

Local Open Scope list_scope.

(** ** JavaScript strings

    A JavaScript string is a finite sequence of UTF-16 code units.  The
    source files are UTF-8 text, so a literal of the source is written here
    as the same literal and decoded by [js]: UTF-8 bytes to code points,
    code points to code units. *)

Module JsString.

Definition code_unit := N.
Definition jsstring := list code_unit.

Definition continuation (b : N) : bool := ((128 <=? b) && (b <? 192))%N.

Definition replacement : N := 65533.

(** Code points of a byte sequence; a malformed sequence yields U+FFFD. *)
Fixpoint utf8_decode (bs : list N) : list N :=
  match bs with
  | [] => []
  | b0 :: r0 =>
    if (b0 <? 128)%N then b0 :: utf8_decode r0
    else if (b0 <? 192)%N then replacement :: utf8_decode r0
    else if (b0 <? 224)%N then
      match r0 with
      | b1 :: r1 =>
        if continuation b1
        then ((b0 - 192) * 64 + (b1 - 128))%N :: utf8_decode r1
        else replacement :: utf8_decode r0
      | _ => replacement :: utf8_decode r0
      end
    else if (b0 <? 240)%N then
      match r0 with
      | b1 :: (b2 :: r2) as r1 =>
        if continuation b1 && continuation b2
        then ((b0 - 224) * 4096 + (b1 - 128) * 64 + (b2 - 128))%N
             :: utf8_decode r2
        else replacement :: utf8_decode r0
      | _ => replacement :: utf8_decode r0
      end
    else if (b0 <? 248)%N then
      match r0 with
      | b1 :: (b2 :: (b3 :: r3) as r2) as r1 =>
        if continuation b1 && continuation b2 && continuation b3
        then ((b0 - 240) * 262144 + (b1 - 128) * 4096
              + (b2 - 128) * 64 + (b3 - 128))%N :: utf8_decode r3
        else replacement :: utf8_decode r0
      | _ => replacement :: utf8_decode r0
      end
    else replacement :: utf8_decode r0
  end.

(** The code units of one code point: itself in the basic plane, a
    surrogate pair above it. *)
Definition utf16_encode (cp : N) : list code_unit :=
  if (cp <? 65536)%N then [cp]
  else [(55296 + (cp - 65536) / 1024)%N; (56320 + (cp - 65536) mod 1024)%N].

Definition bytes_of (s : string) : list N :=
  List.map N_of_ascii (list_ascii_of_string s).

(** The value of the source literal [s]. *)
Definition js (s : string) : jsstring :=
  List.flat_map utf16_encode (utf8_decode (bytes_of s)).

(** [a + b] on strings, and so a template literal with two parts. *)
Definition concat (a b : jsstring) : jsstring := a ++ b.

(** [s.startsWith(p)] and the strict version of it. *)
Definition prefix_of (p s : jsstring) : Prop := exists t, s = p ++ t.
Definition proper_prefix_of (p s : jsstring) : Prop :=
  exists t, t <> [] /\ s = p ++ t.

End JsString.

Import JsString.

(** ** Regular expressions over code units

    The URL shape is given twice: by the template literal type [ValidUrl]
    of the source and by a regular expression.  Both are read as regular
    languages; a pattern anchored with [^] and [$] (without the [m] flag)
    accepts a string when the whole string is in the language. *)

Module Regex.

Inductive regex : Type :=
| Void
| Eps
| Class (p : code_unit -> bool)
| Seq (r1 r2 : regex)
| Alt (r1 r2 : regex)
| Star (r : regex).

Inductive Matches : regex -> jsstring -> Prop :=
| MEps : Matches Eps []
| MClass p c : p c = true -> Matches (Class p) [c]
| MSeq r1 r2 s1 s2 :
    Matches r1 s1 -> Matches r2 s2 -> Matches (Seq r1 r2) (s1 ++ s2)
| MAltL r1 r2 s : Matches r1 s -> Matches (Alt r1 r2) s
| MAltR r1 r2 s : Matches r2 s -> Matches (Alt r1 r2) s
| MStar0 r : Matches (Star r) []
| MStarS r s1 s2 :
    Matches r s1 -> Matches (Star r) s2 -> Matches (Star r) (s1 ++ s2).

Fixpoint nullable (r : regex) : bool :=
  match r with
  | Void => false
  | Eps => true
  | Class _ => false
  | Seq r1 r2 => nullable r1 && nullable r2
  | Alt r1 r2 => nullable r1 || nullable r2
  | Star _ => true
  end.

Fixpoint deriv (c : code_unit) (r : regex) : regex :=
  match r with
  | Void => Void
  | Eps => Void
  | Class p => if p c then Eps else Void
  | Seq r1 r2 =>
    if nullable r1 then Alt (Seq (deriv c r1) r2) (deriv c r2)
    else Seq (deriv c r1) r2
  | Alt r1 r2 => Alt (deriv c r1) (deriv c r2)
  | Star r1 => Seq (deriv c r1) (Star r1)
  end.

Fixpoint matchb (r : regex) (s : jsstring) : bool :=
  match s with
  | [] => nullable r
  | c :: s' => matchb (deriv c r) s'
  end.

(** The pieces of the concrete syntax. *)
Definition Chr (c : code_unit) : regex := Class (N.eqb c).
Definition NotChr (c : code_unit) : regex := Class (fun x => negb (N.eqb c x)).
Definition Any : regex := Class (fun _ => true).
Definition Opt (r : regex) : regex := Alt r Eps.
Definition Plus (r : regex) : regex := Seq r (Star r).
Definition Lit (s : jsstring) : regex :=
  List.fold_right (fun c r => Seq (Chr c) r) Eps s.

(** LF, CR, U+2028 and U+2029: what [.] does not match. *)
Definition line_terminator (c : code_unit) : bool :=
  (N.eqb c 10 || N.eqb c 13 || N.eqb c 8232 || N.eqb c 8233)%bool.
Definition Dot : regex := Class (fun c => negb (line_terminator c)).

(** The code unit of a one-character literal. *)
Definition char (s : string) : code_unit := List.hd 0%N (js s).

(** [^(https?)://[^/]+\.[^/]+/?.*$] *)
Definition url_pattern : regex :=
  Seq (Seq (Lit (js "http")) (Opt (Chr (char "s"))))
  (Seq (Lit (js "://"))
  (Seq (Plus (NotChr (char "/")))
  (Seq (Chr (char "."))
  (Seq (Plus (NotChr (char "/")))
  (Seq (Opt (Chr (char "/")))
       (Star Dot)))))).

End Regex.

Import Regex.

(** ** src/resources/feed-info-list.ts *)

Module FeedInfoList.

(** [type ValidUrl = `${'http' | 'https'}://${string}.${string}`]: the
    strings assignable to the type.  A [${string}] hole takes any string,
    the empty one too.  The type is erased by compilation: no code of the
    registry tests it. *)
Definition ValidUrl : regex :=
  Seq (Alt (Lit (js "http")) (Lit (js "https")))
  (Seq (Lit (js "://"))
  (Seq (Star Any)
  (Seq (Lit (js "."))
       (Star Any)))).

(** [type FeedInfoTuple = [label: string, url: ValidUrl]] *)
Definition FeedInfoTuple : Type := jsstring * jsstring.

(** [interface FeedInfo { label: string; url: ValidUrl }] *)
Record FeedInfo : Type := { label : jsstring; url : jsstring }.

(** A list of tuples the compiler accepts as [FeedInfoTuple[]]. *)
Definition well_typed (feedInfoTuples : list FeedInfoTuple) : bool :=
  List.forallb (fun t => matchb ValidUrl (snd t)) feedInfoTuples.

(** How a call ends.  [ConfigurationError] is the error kind of the
    registry contract, carrying the offending url; [TypeError] is what the
    language raises on a value of the wrong kind. *)
Inductive error : Type :=
| ConfigurationError (offending : jsstring)
| TypeError.

Inductive completion (A : Type) : Type :=
| Normal (v : A)
| Throw (e : error).
Arguments Normal {A} v.
Arguments Throw {A} e.

Definition bind {A B} (c : completion A) (k : A -> completion B)
  : completion B :=
  match c with
  | Normal v => k v
  | Throw e => Throw e
  end.

(** [arr.push(x)] on the value of an array. *)
Definition push {A} (arr : list A) (x : A) : list A := arr ++ [x].

(** [for (const x of xs) body], the loop state passed along. *)
Fixpoint for_of {A S} (xs : list A) (body : A -> S -> completion S) (st : S)
  : completion S :=
  match xs with
  | [] => Normal st
  | x :: xs' => bind (body x st) (for_of xs' body)
  end.

Definition createFeedInfoList (feedInfoTuples : list FeedInfoTuple)
  : completion (list FeedInfo) :=
  let feedInfoList : list FeedInfo := [] in
  bind (for_of feedInfoTuples
          (fun '(label, url) feedInfoList =>
             Normal (push feedInfoList {| label := label; url := url |}))
          feedInfoList)
       (fun feedInfoList => Normal feedInfoList).

Definition FEED_INFO_LIST : completion (list FeedInfo) :=
  createFeedInfoList [
    (js "ITmedia AI+", js "https://rss.itmedia.co.jp/rss/2.0/aiplus.xml");
    (js "Zenn（機械学習タグ）", js "https://zenn.dev/topics/機械学習/feed");
    (js "Zenn（AIタグ）", js "https://zenn.dev/topics/ai/feed");
    (js "Zenn（生成AIタグ）", js "https://zenn.dev/topics/生成ai/feed");
    (js "Zenn（DLタグ）", js "https://zenn.dev/topics/deeplearning/feed");
    (js "Zenn（LLMタグ）", js "https://zenn.dev/topics/llm/feed");
    (js "Qiita（機械学習タグ）", js "https://qiita.com/tags/機械学習/feed");
    (js "Qiita（AIタグ）", js "https://qiita.com/tags/AI/feed");
    (js "Qiita（生成AIタグ）", js "https://qiita.com/tags/生成AI/feed");
    (js "Qiita（DLタグ）", js "https://qiita.com/tags/DL/feed");
    (js "Qiita（LLMタグ）", js "https://qiita.com/tags/LLM/feed")
  ].

(** The record built from one tuple, and two entries sharing a label. *)
Definition feedInfo_of (t : FeedInfoTuple) : FeedInfo :=
  {| label := fst t; url := snd t |}.

Definition duplicate_label (feedInfoTuples : list FeedInfoTuple) : Prop :=
  exists (i j : nat) (t1 t2 : FeedInfoTuple),
    i <> j /\ feedInfoTuples !! i = Some t1 /\ feedInfoTuples !! j = Some t2
    /\ fst t1 = fst t2.

End FeedInfoList.

Import FeedInfoList.

(** ** The same function on a store of objects

    Arrays and records are objects with identity.  [Heap.createFeedInfoList]
    is the function with the store passed along: the input is the location
    of an array of tuples, the result the location of a new array of new
    records.  A tuple is an array of two strings that the function only
    reads; it is kept as a pair. *)

Module Heap.

Definition loc : Type := positive.

Inductive object : Type :=
| Tuple (label url : jsstring)
| Info (fi : FeedInfo)
| Array (elems : list loc).

Abbreviation heap := (gmap loc object).

(** A computation on the store; [None] when the fuel of a loop runs out. *)
Definition M (A : Type) : Type := heap -> option (completion A * heap).

Definition ret {A} (v : A) : M A := fun h => Some (Normal v, h).

Definition mbind {A B} (c : M A) (k : A -> M B) : M B :=
  fun h =>
    match c h with
    | Some (Normal v, h') => k v h'
    | Some (Throw e, h') => Some (Throw e, h')
    | None => None
    end.

Notation "x <- c ;; k" := (mbind c (fun x => k))
  (at level 100, c at next level, right associativity).

(** A new object at a location not in use. *)
Definition alloc (o : object) : M loc :=
  fun h => let l := fresh (dom h) in Some (Normal l, <[l := o]> h).

(** [arr.push(x)]: the array at [arr] is updated in place. *)
Definition push (arr x : loc) : M unit :=
  fun h =>
    match h !! arr with
    | Some (Array elems) => Some (Normal tt, <[arr := Array (elems ++ [x])]> h)
    | _ => Some (Throw TypeError, h)
    end.

(** One step of the array iterator: the element at index [i] of the array
    as it is now, or nothing once [i] has reached its length. *)
Definition next (arr : loc) (i : nat) : M (option loc) :=
  fun h =>
    match h !! arr with
    | Some (Array elems) => Some (Normal (elems !! i), h)
    | _ => Some (Throw TypeError, h)
    end.

(** [const [label, url] = t] *)
Definition destructure (t : loc) : M (jsstring * jsstring) :=
  fun h =>
    match h !! t with
    | Some (Tuple label url) => Some (Normal (label, url), h)
    | _ => Some (Throw TypeError, h)
    end.

(** [for (const x of arr) body], from index [i] on. *)
Fixpoint for_of (fuel : nat) (arr : loc) (i : nat) (body : loc -> M unit)
  : M unit :=
  match fuel with
  | O => fun _ => None
  | S fuel' =>
    x <- next arr i ;;
    match x with
    | None => ret tt
    | Some t => _ <- body t ;; for_of fuel' arr (S i) body
    end
  end.

Definition createFeedInfoList (fuel : nat) (feedInfoTuples : loc) : M loc :=
  feedInfoList <- alloc (Array []) ;;
  _ <- for_of fuel feedInfoTuples 0 (fun t =>
         tuple <- destructure t ;;
         let '(label, url) := tuple in
         o <- alloc (Info {| label := label; url := url |}) ;;
         push feedInfoList o) ;;
  ret feedInfoList.

(** What a location stands for: the list of tuples of an input array, the
    list of records of a result array. *)
Definition tuple_at (h : heap) (l : loc) : option FeedInfoTuple :=
  match h !! l with
  | Some (Tuple label url) => Some (label, url)
  | _ => None
  end.

Definition tuples_at (h : heap) (arr : loc) : option (list FeedInfoTuple) :=
  match h !! arr with
  | Some (Array elems) => mapM (tuple_at h) elems
  | _ => None
  end.

Definition info_at (h : heap) (l : loc) : option FeedInfo :=
  match h !! l with
  | Some (Info fi) => Some fi
  | _ => None
  end.

Definition infos_at (h : heap) (arr : loc) : option (list FeedInfo) :=
  match h !! arr with
  | Some (Array elems) => mapM (info_at h) elems
  | _ => None
  end.

(** Every object of [h] is in [h'] as it was. *)
Definition preserved (h h' : heap) : Prop :=
  forall l o, h !! l = Some o -> h' !! l = Some o.

(** [h'] is [h] with new objects only: the array at [out], unused in [h],
    and the objects that array lists. *)
Definition only_allocates (h h' : heap) (out : loc) : Prop :=
  preserved h h'
  /\ h !! out = None
  /\ forall l, is_Some (h' !! l) ->
       is_Some (h !! l) \/ l = out
       \/ exists elems, h' !! out = Some (Array elems) /\ l ∈ elems.

(** The two-entry sample list, and two stores holding it: at location 3,
    and at location 2 next to a record that has nothing to do with it. *)
Definition sample_tuples : list FeedInfoTuple :=
  [ (js "ITmedia AI+", js "https://rss.itmedia.co.jp/rss/2.0/aiplus.xml");
    (js "Zenn（AIタグ）", js "https://zenn.dev/topics/ai/feed") ].

Definition sample_heap : heap :=
  <[3%positive := Array [1%positive; 2%positive]]>
  (<[2%positive := Tuple (js "Zenn（AIタグ）") (js "https://zenn.dev/topics/ai/feed")]>
  (<[1%positive := Tuple (js "ITmedia AI+")
                     (js "https://rss.itmedia.co.jp/rss/2.0/aiplus.xml")]> ∅)).

Definition other_heap : heap :=
  <[2%positive := Array [5%positive; 7%positive]]>
  (<[7%positive := Tuple (js "Zenn（AIタグ）") (js "https://zenn.dev/topics/ai/feed")]>
  (<[5%positive := Tuple (js "ITmedia AI+")
                     (js "https://rss.itmedia.co.jp/rss/2.0/aiplus.xml")]>
  (<[1%positive := Info {| label := js "Qiita（AIタグ）";
                           url := js "https://qiita.com/tags/AI/feed" |}]> ∅))).

End Heap.

(** ** src/common/constants.ts *)

Module Constants.

(** A template literal: its text parts and substitutions, concatenated.
    Every substitution of this file is a string. *)
Definition template (parts : list jsstring) : jsstring := List.concat parts.

Definition siteUrlStem : jsstring :=
  js "https://univac-1.github.io/ai-info-rss-feed".
Definition siteUrl : jsstring := template [siteUrlStem; js "/"].

(** The exported object.  Its numbers are integer literals and one product
    of two of them, far below 2^53, where the arithmetic of the language is
    the arithmetic of the integers. *)
Module Site.

Record FeedUrls : Type := { atom : jsstring; rss : jsstring; json : jsstring }.

Record t : Type := {
  siteUrl : jsstring;
  siteUrlStem : jsstring;
  siteTitle : jsstring;
  siteDescription : jsstring;
  feedTitle : jsstring;
  feedDescription : jsstring;
  feedLanguage : jsstring;
  feedCopyright : jsstring;
  feedGenerator : jsstring;
  feedUrls : FeedUrls;
  author : jsstring;
  gitHubUserUrl : jsstring;
  gitHubRepositoryUrl : jsstring;
  xUserUrl : jsstring;
  googleSiteVerification : jsstring;
  globalSiteTagKey : jsstring;
  requestUserAgent : jsstring;
  howToAddSiteLink : jsstring;
  feedFetchConcurrency : Z;
  feedOgFetchConcurrency : Z;
  aggregateFeedDurationInHours : Z;
  maxFeedDescriptionLength : Z;
  maxFeedContentLength : Z;
  processImageConcurrency : Z;
  eleventyFetchConcurrency : Z;
  fetchedFeedCacheDurationInHours : Z;
  fetchedOgCacheDurationInHours : Z
}.

End Site.

Definition default : Site.t := {|
  Site.siteUrl := template [siteUrl];
  Site.siteUrlStem := siteUrlStem;
  Site.siteTitle := js "AI関連情報RSS";
  Site.siteDescription :=
    js "AI関連情報の更新をまとめたRSSフィードを配信しています。記事を読んでAI技術の最新動向や質の高い技術情報を得られることを目的としています。";
  Site.feedTitle := js "AI関連情報RSS";
  Site.feedDescription := js "AI関連情報の更新をまとめたRSSフィード";
  Site.feedLanguage := js "ja";
  Site.feedCopyright := js "univac-1/ai-info-rss-feed";
  Site.feedGenerator := js "univac-1/ai-info-rss-feed";
  Site.feedUrls := {|
    Site.atom := template [siteUrl; js "feeds/atom.xml"];
    Site.rss := template [siteUrl; js "feeds/rss.xml"];
    Site.json := template [siteUrl; js "feeds/feed.json"]
  |};
  Site.author := js "univac-1";
  Site.gitHubUserUrl := js "https://github.com/univac-1/";
  Site.gitHubRepositoryUrl := js "https://github.com/univac-1/ai-info-rss-feed/";
  Site.xUserUrl := js "https://x.com/univac-1";
  Site.googleSiteVerification := js "GPLvXv8kYtLMW912ZS54DKFEZL6ruOrjOFLdHVTo37o";
  Site.globalSiteTagKey := js "G-CNNNTL0NB3";
  Site.requestUserAgent := js "facebookexternalhit/1.1; univac-1/ai-info-rss-feed";
  Site.howToAddSiteLink :=
    js "https://github.com/univac-1/ai-info-rss-feed#%E3%82%B5%E3%82%A4%E3%83%88%E3%81%AE%E8%BF%BD%E5%8A%A0%E6%96%B9%E6%B3%95";
  Site.feedFetchConcurrency := 50;
  Site.feedOgFetchConcurrency := 20;
  Site.aggregateFeedDurationInHours := 8 * 24;
  Site.maxFeedDescriptionLength := 200;
  Site.maxFeedContentLength := 500;
  Site.processImageConcurrency := 50;
  Site.eleventyFetchConcurrency := 50;
  Site.fetchedFeedCacheDurationInHours := 1;
  Site.fetchedOgCacheDurationInHours := 24
|}%Z.

End Constants.

(** * Properties *)

Example js_ascii : js "AI+" = [65; 73; 43]%N.
Proof. reflexivity. Qed.

Example js_kanji : js "機械学習" = [27231; 26800; 23398; 32722]%N.
Proof. reflexivity. Qed.

Example js_fullwidth : js "（AIタグ）" = [65288; 65; 73; 12479; 12464; 65289]%N.
Proof. reflexivity. Qed.

Example url_pattern_accepts :
  matchb url_pattern (js "http://a.b") = true
  /\ matchb url_pattern (js "https://zenn.dev/topics/機械学習/feed") = true
  /\ matchb url_pattern (js "https://a.b/") = true.
Proof. repeat apply conj; vm_compute; reflexivity. Qed.

Example url_pattern_rejects :
  matchb url_pattern (js "http://.") = false
  /\ matchb url_pattern (js "https:///a.b") = false
  /\ matchb url_pattern (js "ftp://a.b/feed") = false
  /\ matchb url_pattern (js "https://localhost/feed") = false
  /\ matchb url_pattern (js "zenn.dev/feed") = false.
Proof. repeat apply conj; vm_compute; reflexivity. Qed.

Example ValidUrl_accepts :
  matchb ValidUrl (js "http://.") = true
  /\ matchb ValidUrl (js "https:///a.b") = true
  /\ matchb ValidUrl (js "https://zenn.dev/topics/ai/feed") = true.
Proof. repeat apply conj; vm_compute; reflexivity. Qed.

Example ValidUrl_rejects :
  matchb ValidUrl (js "ftp://a.b/feed") = false
  /\ matchb ValidUrl (js "https://localhost/feed") = false
  /\ matchb ValidUrl (js "not a url") = false.
Proof. repeat apply conj; vm_compute; reflexivity. Qed.

Example js_astral : js "😀" = [55357; 56832]%N.
Proof. reflexivity. Qed.


(** ** The matcher decides the language of a regular expression *)

Section Matcher.

Lemma nullable_Matches (r : regex) : nullable r = true <-> Matches r [].
Proof.
  induction r as [| |p|r1 IH1 r2 IH2|r1 IH1 r2 IH2|r IH]; simpl.
  - split; [discriminate | inversion 1].
  - split; [constructor | reflexivity].
  - split; [discriminate | inversion 1].
  - rewrite andb_true_iff, IH1, IH2. split.
    + intros [H1 H2]. change (@nil code_unit) with (@nil code_unit ++ []).
      now constructor.
    + inversion 1 as [| |? ? s1 s2 H1 H2 Hr Hs| | | |]; subst.
      apply app_eq_nil in Hs as [-> ->]. now split.
  - rewrite orb_true_iff, IH1, IH2. split.
    + intros [H|H]; [now apply MAltL | now apply MAltR].
    + inversion 1; subst; [now left | now right].
  - split; [constructor | reflexivity].
Qed.

Lemma Matches_Star_cons (r : regex) (c : code_unit) (s : jsstring) :
  Matches (Star r) (c :: s) ->
  exists s1 s2, s = s1 ++ s2 /\ Matches r (c :: s1) /\ Matches (Star r) s2.
Proof.
  intros H. remember (Star r) as r' eqn:Er. remember (c :: s) as w eqn:Ew.
  revert s Ew. induction H as [| | | | | |r0 s1 s2 H1 _ H2 IH2]; try discriminate.
  injection Er as ->. intros s Ew. destruct s1 as [|c1 s1]; simpl in Ew.
  - now apply IH2.
  - injection Ew as -> <-. now exists s1, s2.
Qed.

Lemma Matches_deriv (r : regex) (c : code_unit) (s : jsstring) :
  Matches (deriv c r) s <-> Matches r (c :: s).
Proof.
  revert s. induction r as [| |p|r1 IH1 r2 IH2|r1 IH1 r2 IH2|r IH];
    intros s; simpl.
  - split; inversion 1.
  - split; inversion 1.
  - destruct (p c) eqn:Ep; split; inversion 1; subst.
    + now constructor.
    + constructor.
    + congruence.
  - assert (Hcons : forall s, (exists s1 s2, s = s1 ++ s2 /\
                Matches r1 (c :: s1) /\ Matches r2 s2) ->
              Matches (Seq r1 r2) (c :: s)).
    { intros ? (s1 & s2 & -> & H1 & H2).
      change (c :: s1 ++ s2) with ((c :: s1) ++ s2). now constructor. }
    assert (Hsplit : forall s, Matches (Seq r1 r2) (c :: s) ->
              (exists s1 s2, s = s1 ++ s2 /\
                Matches r1 (c :: s1) /\ Matches r2 s2)
              \/ (Matches r1 [] /\ Matches r2 (c :: s))).
    { intros s0 H. inversion H as [| |? ? s1 s2 H1 H2 Hr Hs| | | |]; subst.
      destruct s1 as [|c1 s1]; simpl in Hs.
      - right. subst. now split.
      - injection Hs as -> <-. left. now exists s1, s2. }
    destruct (nullable r1) eqn:En; split.
    + inversion 1 as [| | |? ? ? H1|? ? ? H2| |]; subst.
      * inversion H1; subst. apply Hcons. eexists _, _.
        split; [reflexivity|]. split; [now apply IH1 | assumption].
      * apply IH2 in H2. change (c :: s) with ([] ++ c :: s).
        constructor; [now apply nullable_Matches | assumption].
    + intros H. apply Hsplit in H as [(s1 & s2 & -> & H1 & H2)|[_ H2]].
      * apply MAltL. constructor; [now apply IH1 | assumption].
      * apply MAltR. now apply IH2.
    + inversion 1; subst. apply Hcons. eexists _, _.
      split; [reflexivity|]. split; [now apply IH1 | assumption].
    + intros H. apply Hsplit in H as [(s1 & s2 & -> & H1 & H2)|[H1 _]].
      * constructor; [now apply IH1 | assumption].
      * apply nullable_Matches in H1. congruence.
  - split.
    + inversion 1; subst; [apply MAltL | apply MAltR]; now apply IH1 || apply IH2.
    + inversion 1; subst; [apply MAltL | apply MAltR]; now apply IH1 || apply IH2.
  - split.
    + inversion 1; subst.
      match goal with |- Matches _ (c :: ?a ++ ?b) =>
        change (c :: a ++ b) with ((c :: a) ++ b) end.
      constructor; [now apply IH | assumption].
    + intros H. apply Matches_Star_cons in H as (s1 & s2 & -> & H1 & H2).
      constructor; [now apply IH | assumption].
Qed.

Lemma matchb_Matches (r : regex) (s : jsstring) :
  matchb r s = true <-> Matches r s.
Proof.
  revert r. induction s as [|c s IH]; intros r; simpl.
  - apply nullable_Matches.
  - rewrite IH. apply Matches_deriv.
Qed.

End Matcher.

(** ** The two descriptions of the URL shape *)

Section UrlShape.

Lemma Matches_Seq_inv (r1 r2 : regex) (s : jsstring) :
  Matches (Seq r1 r2) s ->
  exists s1 s2, s = s1 ++ s2 /\ Matches r1 s1 /\ Matches r2 s2.
Proof. inversion 1; subst. eauto. Qed.

Lemma Matches_Chr (c : code_unit) (s : jsstring) :
  Matches (Chr c) s <-> s = [c].
Proof.
  unfold Chr. split.
  - inversion 1 as [|? ? Hc| | | | |]; subst.
    apply N.eqb_eq in Hc. now subst.
  - intros ->. constructor. apply N.eqb_refl.
Qed.

Lemma Matches_Lit (l s : jsstring) : Matches (Lit l) s <-> s = l.
Proof.
  revert s. induction l as [|c l IH]; intros s; simpl.
  - split; [now inversion 1 | intros ->; constructor].
  - split.
    + intros H. apply Matches_Seq_inv in H as (s1 & s2 & -> & H1 & H2).
      apply Matches_Chr in H1 as ->. apply IH in H2 as ->. reflexivity.
    + intros ->. change (c :: l) with ([c] ++ l).
      constructor; [now apply Matches_Chr | now apply IH].
Qed.

Lemma Matches_Opt (r : regex) (s : jsstring) :
  Matches (Opt r) s <-> Matches r s \/ s = [].
Proof.
  unfold Opt. split.
  - inversion 1 as [| | |? ? ? H1|? ? ? H2| |]; subst;
      [now left | right; now inversion H2].
  - intros [H| ->]; [now apply MAltL | apply MAltR; constructor].
Qed.

Lemma Matches_Star_Any (s : jsstring) : Matches (Star Any) s.
Proof.
  induction s as [|c s IH]; [constructor|].
  change (c :: s) with ([c] ++ s). constructor; [now constructor | exact IH].
Qed.

(** The strings of the type [ValidUrl], as the template literal reads. *)
Lemma ValidUrl_shape (s : jsstring) :
  Matches ValidUrl s <->
  exists scheme a b,
    (scheme = js "http" \/ scheme = js "https")
    /\ s = scheme ++ js "://" ++ a ++ js "." ++ b.
Proof.
  unfold ValidUrl. split.
  - intros H.
    apply Matches_Seq_inv in H as (scheme & s1 & -> & Hs & H).
    apply Matches_Seq_inv in H as (sep & s2 & -> & Hsep & H).
    apply Matches_Seq_inv in H as (a & s3 & -> & _ & H).
    apply Matches_Seq_inv in H as (dot & b & -> & Hdot & _).
    apply Matches_Lit in Hsep as ->. apply Matches_Lit in Hdot as ->.
    exists scheme, a, b. split; [|reflexivity].
    inversion Hs as [| | |? ? ? H1|? ? ? H2| |]; subst;
      [left; now apply Matches_Lit | right; now apply Matches_Lit].
  - intros (scheme & a & b & Hs & ->).
    constructor.
    { destruct Hs as [-> | ->];
        [apply MAltL | apply MAltR]; now apply Matches_Lit. }
    constructor; [now apply Matches_Lit|].
    constructor; [apply Matches_Star_Any|].
    constructor; [now apply Matches_Lit | apply Matches_Star_Any].
Qed.

(** Every string of the pattern is a string of the type. *)
Lemma url_pattern_ValidUrl (s : jsstring) :
  Matches url_pattern s -> Matches ValidUrl s.
Proof.
  unfold url_pattern. intros H.
  apply Matches_Seq_inv in H as (scheme & s1 & -> & Hs & H).
  apply Matches_Seq_inv in H as (sep & s2 & -> & Hsep & H).
  apply Matches_Seq_inv in H as (host & s3 & -> & _ & H).
  apply Matches_Seq_inv in H as (dot & rest & -> & Hdot & _).
  apply Matches_Lit in Hsep as ->. apply Matches_Chr in Hdot as ->.
  apply Matches_Seq_inv in Hs as (http & opt_s & -> & Hhttp & Hopt).
  apply Matches_Lit in Hhttp as ->.
  apply ValidUrl_shape.
  apply Matches_Opt in Hopt as [Hopt| ->].
  - apply Matches_Chr in Hopt as ->.
    exists (js "https"), host, rest. split; [now right | reflexivity].
  - exists (js "http"), host, rest. split; [now left | reflexivity].
Qed.

End UrlShape.

(** ** The registry: one record per tuple *)

Section Registry.

Implicit Types (feedInfoTuples : list FeedInfoTuple) (acc : list FeedInfo).

(** The loop appends to the array one record per tuple, and completes. *)
Lemma for_of_push feedInfoTuples acc :
  for_of feedInfoTuples
    (fun '(label, url) feedInfoList =>
       Normal (push feedInfoList {| label := label; url := url |})) acc
  = Normal (acc ++ List.map feedInfo_of feedInfoTuples).
Proof.
  revert acc. induction feedInfoTuples as [|[lb u] ts IH]; intros acc; simpl.
  - now rewrite app_nil_r.
  - rewrite IH. unfold push, feedInfo_of. simpl. now rewrite <- app_assoc.
Qed.

Lemma createFeedInfoList_map feedInfoTuples :
  createFeedInfoList feedInfoTuples
  = Normal (List.map feedInfo_of feedInfoTuples).
Proof. unfold createFeedInfoList. now rewrite for_of_push. Qed.

Lemma lookup_map_feedInfo_of feedInfoTuples (i : nat) :
  List.map feedInfo_of feedInfoTuples !! i
  = feedInfo_of <$> feedInfoTuples !! i.
Proof. apply list_lookup_fmap. Qed.

End Registry.

(** C2.  For every list of tuples [createFeedInfoList] returns a list of
    the same length whose i-th element is the record with the label and
    the url of the i-th tuple, unchanged and in the same order; on the
    two-entry sample list it returns exactly those two records. *)
Theorem createFeedInfoList_preserves_entries :
  (forall feedInfoTuples : list FeedInfoTuple,
     exists feedInfoList,
       createFeedInfoList feedInfoTuples = Normal feedInfoList
       /\ length feedInfoList = length feedInfoTuples
       /\ forall i : nat,
            feedInfoList !! i
            = (fun t => {| label := fst t; url := snd t |})
                <$> feedInfoTuples !! i)
  /\ createFeedInfoList
       [ (js "ITmedia AI+", js "https://rss.itmedia.co.jp/rss/2.0/aiplus.xml");
         (js "Zenn（AIタグ）", js "https://zenn.dev/topics/ai/feed") ]
     = Normal
       [ {| label := js "ITmedia AI+";
            url := js "https://rss.itmedia.co.jp/rss/2.0/aiplus.xml" |};
         {| label := js "Zenn（AIタグ）";
            url := js "https://zenn.dev/topics/ai/feed" |} ].
Proof.
  split.
  - intros ts. exists (List.map feedInfo_of ts).
    split; [apply createFeedInfoList_map|].
    split; [apply length_map|].
    intros i. apply lookup_map_feedInfo_of.
  - now rewrite createFeedInfoList_map.
Qed.

(** C1, as stated, fails.  The list with the single entry
    [("x", "http://.")] is accepted by the compiler (the url is of type
    [ValidUrl], both holes empty), its url does not match the pattern, and
    [createFeedInfoList] returns the one record: nothing is raised. *)
Lemma createFeedInfoList_accepts_unmatched_url :
  let feedInfoTuples := [ (js "x", js "http://.") ] in
  Exists (fun t => matchb url_pattern (snd t) = false) feedInfoTuples
  /\ well_typed feedInfoTuples = true
  /\ createFeedInfoList feedInfoTuples
     = Normal [ {| label := js "x"; url := js "http://." |} ]
  /\ ~ (exists offending,
         createFeedInfoList feedInfoTuples
         = Throw (ConfigurationError offending)).
Proof.
  cbv zeta. split; [|split; [|split]].
  - apply Exists_cons_hd. vm_compute. reflexivity.
  - vm_compute. reflexivity.
  - now rewrite createFeedInfoList_map.
  - intros [offending H]. rewrite createFeedInfoList_map in H. discriminate.
Qed.

(** C1, amended.  For every list of tuples with an entry whose url does
    not match the pattern, [createFeedInfoList] still returns the complete
    list, one record per tuple in order, and raises no error: the function
    checks nothing when it runs.  The shape of a url is constrained by the
    type [ValidUrl] alone, when the program is compiled; every url that
    matches the pattern is of that type. *)
Theorem createFeedInfoList_unmatched_url_returns
    (feedInfoTuples : list FeedInfoTuple) :
  Exists (fun t => matchb url_pattern (snd t) = false) feedInfoTuples ->
  createFeedInfoList feedInfoTuples
  = Normal (List.map (fun t => {| label := fst t; url := snd t |})
              feedInfoTuples)
  /\ (forall e, createFeedInfoList feedInfoTuples <> Throw e)
  /\ (forall u, matchb url_pattern u = true -> matchb ValidUrl u = true).
Proof.
  intros _. split; [apply createFeedInfoList_map|]. split.
  - intros e. now rewrite createFeedInfoList_map.
  - intros u Hu. apply matchb_Matches. apply url_pattern_ValidUrl.
    now apply matchb_Matches.
Qed.

Lemma createFeedInfoList_unmatched_url_returns_witness :
  Exists (fun t => matchb url_pattern (snd t) = false)
    [ (js "ITmedia AI+", js "ftp://rss.itmedia.co.jp/aiplus.xml") ]
  /\ createFeedInfoList
       [ (js "ITmedia AI+", js "ftp://rss.itmedia.co.jp/aiplus.xml") ]
     = Normal [ {| label := js "ITmedia AI+";
                   url := js "ftp://rss.itmedia.co.jp/aiplus.xml" |} ].
Proof.
  assert (H : Exists (fun t : FeedInfoTuple => matchb url_pattern (snd t) = false)
                [ (js "ITmedia AI+", js "ftp://rss.itmedia.co.jp/aiplus.xml") ]).
  { apply Exists_cons_hd. vm_compute. reflexivity. }
  split; [exact H|].
  destruct (createFeedInfoList_unmatched_url_returns _ H) as [Heq _].
  rewrite Heq. reflexivity.
Defined.

(** C3.  The exported registry is built without error, has eleven entries,
    and the url of each of them matches the pattern of an absolute http or
    https URL with a dotted host. *)
Theorem FEED_INFO_LIST_urls_match :
  exists feedInfoList,
    FEED_INFO_LIST = Normal feedInfoList
    /\ length feedInfoList = 11
    /\ Forall (fun fi => Matches url_pattern (url fi)) feedInfoList.
Proof.
  unfold FEED_INFO_LIST. rewrite createFeedInfoList_map.
  eexists. split; [reflexivity|]. split; [reflexivity|].
  simpl List.map.
  repeat (apply Forall_cons; split;
          [apply matchb_Matches; vm_compute; reflexivity|]).
  apply Forall_nil. exact I.
Qed.

(** C6.  Labels are not checked: for every list of tuples in which two
    entries at different positions have the same label,
    [createFeedInfoList] returns normally with a record for every entry,
    both entries of the equal label among them at their positions. *)
Theorem createFeedInfoList_keeps_duplicate_labels
    (feedInfoTuples : list FeedInfoTuple) :
  duplicate_label feedInfoTuples ->
  exists feedInfoList,
    createFeedInfoList feedInfoTuples = Normal feedInfoList
    /\ length feedInfoList = length feedInfoTuples
    /\ (forall i : nat,
          feedInfoList !! i
          = (fun t => {| label := fst t; url := snd t |})
              <$> feedInfoTuples !! i)
    /\ exists i j fi1 fi2,
         i <> j /\ feedInfoList !! i = Some fi1
         /\ feedInfoList !! j = Some fi2 /\ label fi1 = label fi2.
Proof.
  intros (i & j & t1 & t2 & Hij & Hi & Hj & Hl).
  exists (List.map feedInfo_of feedInfoTuples).
  split; [apply createFeedInfoList_map|].
  split; [apply length_map|].
  split; [intros k; apply lookup_map_feedInfo_of|].
  exists i, j, (feedInfo_of t1), (feedInfo_of t2).
  split; [exact Hij|].
  rewrite !lookup_map_feedInfo_of, Hi, Hj. now repeat split.
Qed.

Lemma createFeedInfoList_keeps_duplicate_labels_witness :
  duplicate_label
    [ (js "Zenn", js "https://zenn.dev/topics/ai/feed");
      (js "Zenn", js "https://zenn.dev/topics/llm/feed") ]
  /\ exists feedInfoList,
       createFeedInfoList
         [ (js "Zenn", js "https://zenn.dev/topics/ai/feed");
           (js "Zenn", js "https://zenn.dev/topics/llm/feed") ]
       = Normal feedInfoList
       /\ length feedInfoList = 2.
Proof.
  assert (H : duplicate_label
                [ (js "Zenn", js "https://zenn.dev/topics/ai/feed");
                  (js "Zenn", js "https://zenn.dev/topics/llm/feed") ]).
  { exists 0, 1, (js "Zenn", js "https://zenn.dev/topics/ai/feed"),
      (js "Zenn", js "https://zenn.dev/topics/llm/feed").
    split; [lia|]. split; [|split]; vm_compute; reflexivity. }
  split; [exact H|].
  destruct (createFeedInfoList_keeps_duplicate_labels _ H)
    as (l & Hl & Hlen & _).
  exists l. split; [exact Hl | exact Hlen].
Defined.

(** C8.  [createFeedInfoList] is total and never throws: for every list of
    tuples of strings it returns the list of their records.  Neither the
    shape of a url nor the uniqueness of a label is tested at run time: a
    list that the type [ValidUrl] rejects, with one label twice, goes
    through like any other. *)
Theorem createFeedInfoList_never_throws :
  (forall feedInfoTuples : list FeedInfoTuple,
     createFeedInfoList feedInfoTuples
     = Normal (List.map (fun t => {| label := fst t; url := snd t |})
                 feedInfoTuples)
     /\ forall e, createFeedInfoList feedInfoTuples <> Throw e)
  /\ well_typed [ (js "a", js "not a url"); (js "a", js "") ] = false
  /\ createFeedInfoList [ (js "a", js "not a url"); (js "a", js "") ]
     = Normal [ {| label := js "a"; url := js "not a url" |};
                {| label := js "a"; url := js "" |} ].
Proof.
  split; [|split].
  - intros ts. split; [apply createFeedInfoList_map|].
    intros e. now rewrite createFeedInfoList_map.
  - vm_compute. reflexivity.
  - now rewrite createFeedInfoList_map.
Qed.

(** ** The site configuration object *)

Import Constants.

(** C4.  Each of the nine numeric tunables of the exported configuration
    object is a strictly positive integer. *)
Theorem tunables_positive :
  (0 < Site.feedFetchConcurrency default
   /\ 0 < Site.feedOgFetchConcurrency default
   /\ 0 < Site.aggregateFeedDurationInHours default
   /\ 0 < Site.maxFeedDescriptionLength default
   /\ 0 < Site.maxFeedContentLength default
   /\ 0 < Site.processImageConcurrency default
   /\ 0 < Site.eleventyFetchConcurrency default
   /\ 0 < Site.fetchedFeedCacheDurationInHours default
   /\ 0 < Site.fetchedOgCacheDurationInHours default)%Z.
Proof. cbn. lia. Qed.

(** C5.  Each of the three output feed URLs is exactly the site URL of the
    configuration followed by "feeds/" and the file name of the format:
    atom.xml, rss.xml, feed.json. *)
Theorem feedUrls_under_feeds :
  Site.atom (Site.feedUrls default)
  = Site.siteUrl default ++ js "feeds/" ++ js "atom.xml"
  /\ Site.rss (Site.feedUrls default)
    = Site.siteUrl default ++ js "feeds/" ++ js "rss.xml"
  /\ Site.json (Site.feedUrls default)
    = Site.siteUrl default ++ js "feeds/" ++ js "feed.json"
  /\ Site.atom (Site.feedUrls default)
    = Site.siteUrl default ++ js "feeds/atom.xml"
  /\ Site.rss (Site.feedUrls default)
    = Site.siteUrl default ++ js "feeds/rss.xml"
  /\ Site.json (Site.feedUrls default)
    = Site.siteUrl default ++ js "feeds/feed.json".
Proof. repeat apply conj; vm_compute; reflexivity. Qed.

Example feedUrls_values :
  Site.siteUrl default = js "https://univac-1.github.io/ai-info-rss-feed/"
  /\ Site.atom (Site.feedUrls default)
    = js "https://univac-1.github.io/ai-info-rss-feed/feeds/atom.xml"
  /\ Site.rss (Site.feedUrls default)
    = js "https://univac-1.github.io/ai-info-rss-feed/feeds/rss.xml"
  /\ Site.json (Site.feedUrls default)
    = js "https://univac-1.github.io/ai-info-rss-feed/feeds/feed.json".
Proof. repeat apply conj; vm_compute; reflexivity. Qed.

(** C9.  The aggregation window is 192 hours, eight days of 24 hours. *)
Theorem aggregateFeedDurationInHours_192 :
  Site.aggregateFeedDurationInHours default = 192%Z
  /\ Site.aggregateFeedDurationInHours default = (8 * 24)%Z.
Proof. split; reflexivity. Qed.

(** C10.  The site URL is the stem followed by a slash, as a constant of
    the file and as a field of the exported object, and each of the three
    output feed URLs starts with the site URL and is longer than it. *)
Theorem feedUrls_extend_siteUrl :
  siteUrl = siteUrlStem ++ js "/"
  /\ Site.siteUrl default = Site.siteUrlStem default ++ js "/"
  /\ proper_prefix_of (Site.siteUrl default) (Site.atom (Site.feedUrls default))
  /\ proper_prefix_of (Site.siteUrl default) (Site.rss (Site.feedUrls default))
  /\ proper_prefix_of (Site.siteUrl default) (Site.json (Site.feedUrls default)).
Proof.
  split; [vm_compute; reflexivity|].
  split; [vm_compute; reflexivity|].
  split; [|split].
  - exists (js "feeds/atom.xml"). split; vm_compute; [discriminate | reflexivity].
  - exists (js "feeds/rss.xml"). split; vm_compute; [discriminate | reflexivity].
  - exists (js "feeds/feed.json"). split; vm_compute; [discriminate | reflexivity].
Qed.

(** ** The registry on the store *)

Section Store.

Implicit Types (h : gmap Heap.loc Heap.object) (arr out l t : Heap.loc).

(** The body of the loop of [Heap.createFeedInfoList]. *)
Local Abbreviation body out :=
  (fun t =>
     Heap.mbind (Heap.destructure t) (fun tuple =>
       let '(label, url) := tuple in
       Heap.mbind (Heap.alloc (Heap.Info {| label := label; url := url |}))
         (fun o => Heap.push out o))).

Lemma mbind_normal {A B} (c : Heap.M A) (k : A -> Heap.M B) h (v : A) h' :
  c h = Some (Normal v, h') -> Heap.mbind c k h = k v h'.
Proof. unfold Heap.mbind. now intros ->. Qed.

Lemma next_array h arr elems (i : nat) :
  h !! arr = Some (Heap.Array elems) ->
  Heap.next arr i h = Some (Normal (elems !! i), h).
Proof. unfold Heap.next. now intros ->. Qed.

Lemma destructure_tuple h t (tuple : FeedInfoTuple) :
  Heap.tuple_at h t = Some tuple ->
  Heap.destructure t h = Some (Normal tuple, h).
Proof.
  unfold Heap.tuple_at, Heap.destructure.
  destruct (h !! t) as [[lb u| |]|]; try discriminate.
  now intros [= <-].
Qed.

Lemma push_array h arr elems (x : Heap.loc) :
  h !! arr = Some (Heap.Array elems) ->
  Heap.push arr x h
  = Some (Normal tt, <[arr := Heap.Array (elems ++ [x])]> h).
Proof. unfold Heap.push. now intros ->. Qed.

Lemma fresh_unused h : h !! fresh (dom h) = None.
Proof. apply not_elem_of_dom, is_fresh. Qed.

Lemma fresh_ne h l o : h !! l = Some o -> l <> fresh (dom h).
Proof. intros Hl ->. rewrite fresh_unused in Hl. discriminate. Qed.

(** One turn of the loop: a record is allocated at an unused location and
    its location appended to the result array. *)
Lemma body_step h out done t (lb u : jsstring) :
  h !! out = Some (Heap.Array done) ->
  Heap.tuple_at h t = Some (lb, u) ->
  body out t h
  = Some (Normal tt,
          <[out := Heap.Array (done ++ [fresh (dom h)])]>
            (<[fresh (dom h) := Heap.Info {| label := lb; url := u |}]> h)).
Proof.
  intros Hout Ht. cbv beta.
  rewrite (mbind_normal _ _ _ _ _ (destructure_tuple _ _ _ Ht)).
  cbv beta iota. unfold Heap.alloc. unfold Heap.mbind at 1. cbv zeta.
  apply push_array. rewrite lookup_insert_ne; [exact Hout|].
  intros E. symmetry in E. revert E. eapply fresh_ne, Hout.
Qed.

(** Objects other than the result array keep what they stand for. *)
Lemma tuple_at_preserved h h' out done l (tu : FeedInfoTuple) :
  h !! out = Some (Heap.Array done) ->
  (forall l o, l <> out -> h !! l = Some o -> h' !! l = Some o) ->
  Heap.tuple_at h l = Some tu -> Heap.tuple_at h' l = Some tu.
Proof.
  intros Hout Hpres. unfold Heap.tuple_at.
  destruct (h !! l) as [[lb u| |]|] eqn:E; try discriminate.
  rewrite (Hpres l _ (ltac:(intros ->; congruence)) E). trivial.
Qed.

Lemma info_at_preserved h h' out done l (fi : FeedInfo) :
  h !! out = Some (Heap.Array done) ->
  (forall l o, l <> out -> h !! l = Some o -> h' !! l = Some o) ->
  Heap.info_at h l = Some fi -> Heap.info_at h' l = Some fi.
Proof.
  intros Hout Hpres. unfold Heap.info_at.
  destruct (h !! l) as [[| fi0 |]|] eqn:E; try discriminate.
  rewrite (Hpres l _ (ltac:(intros ->; congruence)) E). trivial.
Qed.

Lemma step_preserved h out (elems : list Heap.loc) (o0 : Heap.object) l o :
  l <> out -> h !! l = Some o ->
  <[out := Heap.Array elems]> (<[fresh (dom h) := o0]> h) !! l = Some o.
Proof.
  intros Hne Hl. rewrite lookup_insert_ne by congruence.
  rewrite lookup_insert_ne; [exact Hl|].
  intros E. symmetry in E. revert E. eapply fresh_ne, Hl.
Qed.

(** The loop from index [length visited] on: it ends within the fuel, the
    result array has grown by one new record per remaining tuple, in
    order, and nothing else has changed. *)
Lemma for_of_records (rest : list Heap.loc) :
  forall (ts : list FeedInfoTuple) (fuel : nat) h arr out
         (visited done : list Heap.loc) (infos : list FeedInfo),
    arr <> out ->
    h !! arr = Some (Heap.Array (visited ++ rest)) ->
    h !! out = Some (Heap.Array done) ->
    Forall2 (fun l tu => Heap.tuple_at h l = Some tu) rest ts ->
    Forall2 (fun l fi => Heap.info_at h l = Some fi) done infos ->
    length rest < fuel ->
    exists h' (news : list Heap.loc),
      Heap.for_of fuel arr (length visited) (body out) h
      = Some (Normal tt, h')
      /\ h' !! out = Some (Heap.Array (done ++ news))
      /\ Forall2 (fun l fi => Heap.info_at h' l = Some fi)
           (done ++ news) (infos ++ List.map feedInfo_of ts)
      /\ (forall l o, l <> out -> h !! l = Some o -> h' !! l = Some o)
      /\ (forall l, is_Some (h' !! l) -> is_Some (h !! l) \/ l ∈ news).
Proof.
  induction rest as [|t rest IH];
    intros ts fuel h arr out visited done infos Hne Harr Hout HT HI Hfuel;
    (destruct fuel as [|fuel]; [simpl in Hfuel; lia|]);
    cbn [Heap.for_of];
    rewrite (mbind_normal _ _ _ _ _ (next_array _ _ _ _ Harr)).
  - apply Forall2_nil_inv_l in HT as ->.
    rewrite app_nil_r, (lookup_ge_None_2 visited) by lia.
    exists h, []. simpl. rewrite !app_nil_r.
    split; [reflexivity|]. repeat split; auto.
  - apply Forall2_cons_inv_l in HT as ([lb u] & ts' & Ht & HT & ->).
    rewrite (list_lookup_middle visited rest t _ eq_refl).
    rewrite (mbind_normal _ _ _ _ _ (body_step _ _ _ _ _ _ Hout Ht)).
    set (l0 := fresh (dom h)).
    set (fi := {| label := lb; url := u |}).
    set (h2 := <[out := Heap.Array (done ++ [l0])]> (<[l0 := Heap.Info fi]> h)).
    assert (Hpres : forall l o, l <> out -> h !! l = Some o -> h2 !! l = Some o)
      by (intros; now apply step_preserved).
    assert (Hl0 : l0 <> out).
    { intros E. symmetry in E. revert E. eapply fresh_ne, Hout. }
    destruct (IH ts' fuel h2 arr out (visited ++ [t]) (done ++ [l0])
                (infos ++ [fi])) as (h' & news & Hrun & Hout' & HI' & Hpres' & Hnew).
    + exact Hne.
    + rewrite <- app_assoc. simpl. now apply Hpres.
    + unfold h2. apply lookup_insert_eq.
    + eapply Forall2_impl; [exact HT|]. intros l tu.
      now apply (tuple_at_preserved h h2 out done).
    + apply Forall2_app.
      * eapply Forall2_impl; [exact HI|]. intros l fi0.
        now apply (info_at_preserved h h2 out done).
      * constructor; [|constructor].
        unfold Heap.info_at, h2. rewrite lookup_insert_ne by congruence.
        now rewrite lookup_insert_eq.
    + simpl in Hfuel. lia.
    + exists h', (l0 :: news).
      rewrite length_app, Nat.add_1_r in Hrun.
      split; [exact Hrun|].
      rewrite <- app_assoc in Hout'. rewrite <- !app_assoc in HI'.
      simpl in Hout', HI'.
      split; [exact Hout'|]. split; [exact HI'|]. split.
      * intros l o Hl Hlo. apply Hpres'; [exact Hl|]. now apply Hpres.
      * intros l Hl. apply Hnew in Hl as [Hl|Hl].
        -- unfold h2 in Hl.
           destruct (decide (l = out)) as [->|Hlo]; [left; now rewrite Hout|].
           rewrite lookup_insert_ne in Hl by congruence.
           destruct (decide (l = l0)) as [->|Hll]; [right; apply list_elem_of_here|].
           rewrite lookup_insert_ne in Hl by congruence. now left.
        -- right. now apply list_elem_of_further.
Qed.

Lemma tuple_at_alloc h (o : Heap.object) l (tu : FeedInfoTuple) :
  Heap.tuple_at h l = Some tu ->
  Heap.tuple_at (<[fresh (dom h) := o]> h) l = Some tu.
Proof.
  unfold Heap.tuple_at. intros Hl.
  destruct (h !! l) as [o'|] eqn:E; [|discriminate].
  rewrite lookup_insert_ne; [now rewrite E|].
  intros E'. symmetry in E'. revert E'. eapply fresh_ne, E.
Qed.

(** The call on a store: given an array of tuples and fuel above its
    length, it returns the location of a new array standing for the list
    of records, and the store has only grown by that array and its
    records. *)
Lemma createFeedInfoList_on_store (fuel : nat) h arr (ts : list FeedInfoTuple) :
  Heap.tuples_at h arr = Some ts ->
  length ts < fuel ->
  exists out h',
    Heap.createFeedInfoList fuel arr h = Some (Normal out, h')
    /\ Heap.infos_at h' out = Some (List.map feedInfo_of ts)
    /\ Heap.only_allocates h h' out.
Proof.
  unfold Heap.tuples_at.
  destruct (h !! arr) as [[| |elems]|] eqn:Harr; try discriminate.
  intros HT Hfuel. apply mapM_Some in HT.
  pose proof (Forall2_length _ _ _ HT) as Hlen.
  set (out := fresh (dom h)).
  set (h1 := <[out := Heap.Array []]> h).
  assert (Harr_out : arr <> out) by (eapply fresh_ne, Harr).
  destruct (for_of_records elems ts fuel h1 arr out [] [] [])
    as (h' & news & Hrun & Hout' & HI' & Hpres' & Hnew).
  - exact Harr_out.
  - unfold h1. now rewrite lookup_insert_ne by congruence.
  - unfold h1. apply lookup_insert_eq.
  - eapply Forall2_impl; [exact HT|]. intros l tu. apply tuple_at_alloc.
  - constructor.
  - lia.
  - exists out, h'. simpl in Hrun, Hout', HI'. split; [|split; [|split; [|split]]].
    + unfold Heap.createFeedInfoList, Heap.alloc.
      unfold Heap.mbind at 1. cbv zeta. fold out. fold h1.
      now rewrite (mbind_normal _ _ _ _ _ Hrun).
    + unfold Heap.infos_at. rewrite Hout'. now apply mapM_Some.
    + intros l o Hl. apply Hpres'; [eapply fresh_ne, Hl|].
      unfold h1. rewrite lookup_insert_ne; [exact Hl|].
      intros E. symmetry in E. revert E. eapply fresh_ne, Hl.
    + apply fresh_unused.
    + intros l Hl. apply Hnew in Hl as [Hl|Hl].
      * destruct (decide (l = out)) as [->|Hlo]; [now (right; left)|].
        left. unfold h1 in Hl. now rewrite lookup_insert_ne in Hl by congruence.
      * right; right. now exists news.
Qed.

End Store.

(** C7.  Two calls on equal lists of tuples, in any two stores, with any
    fuel above the length of the list, both return; the two results stand
    for the same list of records, the one [createFeedInfoList] gives for
    the list of tuples; and each call leaves every object of its store as
    it was, adding only the result array and its records.  The result is
    a new array in each call: equal in content, not in identity. *)
Theorem createFeedInfoList_deterministic_and_pure
    (ts : list FeedInfoTuple) (fuel1 fuel2 : nat)
    (h1 h2 : gmap Heap.loc Heap.object) (arr1 arr2 : Heap.loc) :
  Heap.tuples_at h1 arr1 = Some ts ->
  Heap.tuples_at h2 arr2 = Some ts ->
  length ts < fuel1 ->
  length ts < fuel2 ->
  exists out1 h1' out2 h2' feedInfoList,
    Heap.createFeedInfoList fuel1 arr1 h1 = Some (Normal out1, h1')
    /\ Heap.createFeedInfoList fuel2 arr2 h2 = Some (Normal out2, h2')
    /\ createFeedInfoList ts = Normal feedInfoList
    /\ Heap.infos_at h1' out1 = Some feedInfoList
    /\ Heap.infos_at h2' out2 = Some feedInfoList
    /\ Heap.only_allocates h1 h1' out1
    /\ Heap.only_allocates h2 h2' out2.
Proof.
  intros H1 H2 Hf1 Hf2.
  destruct (createFeedInfoList_on_store fuel1 h1 arr1 ts H1 Hf1)
    as (out1 & h1' & Hrun1 & Hres1 & Hpure1).
  destruct (createFeedInfoList_on_store fuel2 h2 arr2 ts H2 Hf2)
    as (out2 & h2' & Hrun2 & Hres2 & Hpure2).
  exists out1, h1', out2, h2', (List.map feedInfo_of ts).
  repeat (split; [assumption || apply createFeedInfoList_map|]).
  assumption.
Qed.

Lemma createFeedInfoList_deterministic_and_pure_witness :
  Heap.tuples_at Heap.sample_heap 3%positive = Some Heap.sample_tuples
  /\ Heap.tuples_at Heap.other_heap 2%positive = Some Heap.sample_tuples
  /\ length Heap.sample_tuples < 3
  /\ length Heap.sample_tuples < 8
  /\ exists out1 h1' out2 h2' feedInfoList,
       Heap.createFeedInfoList 3 3%positive Heap.sample_heap
       = Some (Normal out1, h1')
       /\ Heap.createFeedInfoList 8 2%positive Heap.other_heap
         = Some (Normal out2, h2')
       /\ Heap.infos_at h1' out1 = Some feedInfoList
       /\ Heap.infos_at h2' out2 = Some feedInfoList.
Proof.
  assert (H1 : Heap.tuples_at Heap.sample_heap 3%positive
               = Some Heap.sample_tuples) by (vm_compute; reflexivity).
  assert (H2 : Heap.tuples_at Heap.other_heap 2%positive
               = Some Heap.sample_tuples) by (vm_compute; reflexivity).
  assert (Hf1 : length Heap.sample_tuples < 3) by (vm_compute; lia).
  assert (Hf2 : length Heap.sample_tuples < 8) by (vm_compute; lia).
  repeat (split; [assumption|]).
  destruct (createFeedInfoList_deterministic_and_pure
              _ _ _ _ _ _ _ H1 H2 Hf1 Hf2)
    as (out1 & h1' & out2 & h2' & l & Hr1 & Hr2 & _ & Hl1 & Hl2 & _).
  exists out1, h1', out2, h2', l. repeat (split; [assumption|]). assumption.
Defined.

(** The run on the sample store, computed: the result array is at the
    unused location 4 and stands for the two records. *)
Example createFeedInfoList_sample_heap :
  match Heap.createFeedInfoList 3 3%positive Heap.sample_heap with
  | Some (Normal out, h') =>
    out = 4%positive
    /\ Heap.infos_at h' out = Some (List.map feedInfo_of Heap.sample_tuples)
  | _ => False
  end.
Proof. vm_compute. split; reflexivity. Qed.

(** Without fuel for the last test of the loop the run does not end. *)
Example createFeedInfoList_sample_heap_no_fuel :
  Heap.createFeedInfoList 2 3%positive Heap.sample_heap = None.
Proof. vm_compute. reflexivity. Qed.

(** * Further properties of the registry

    What follows is read off [createFeedInfoList] and the type [ValidUrl]
    themselves. *)

(** ** The list of records as a function of the list of tuples *)

(** X1.  [createFeedInfoList] goes through concatenation: the records of
    [a ++ b] are the records of [a] followed by the records of [b], and the
    empty list of tuples gives the empty list of records. *)
Theorem createFeedInfoList_app (a b : list FeedInfoTuple) :
  createFeedInfoList [] = Normal []
  /\ exists la lb,
       createFeedInfoList a = Normal la
       /\ createFeedInfoList b = Normal lb
       /\ createFeedInfoList (a ++ b) = Normal (la ++ lb).
Proof.
  split; [reflexivity|].
  exists (List.map feedInfo_of a), (List.map feedInfo_of b).
  rewrite !createFeedInfoList_map, List.map_app. now repeat split.
Qed.

(** X2.  Nothing of the input is lost or altered: reading the label and
    the url back from each record of the result gives the list of tuples
    the function was called with. *)
Theorem createFeedInfoList_round_trip (feedInfoTuples : list FeedInfoTuple) :
  exists feedInfoList,
    createFeedInfoList feedInfoTuples = Normal feedInfoList
    /\ List.map (fun fi => (label fi, url fi)) feedInfoList = feedInfoTuples.
Proof.
  exists (List.map feedInfo_of feedInfoTuples).
  split; [apply createFeedInfoList_map|].
  induction feedInfoTuples as [|[lb u] ts IH]; simpl.
  - reflexivity.
  - now rewrite IH.
Qed.

(** X3.  The declared result type is kept: when every url of the input is
    of type [ValidUrl], so is the url of every record of the result. *)
Theorem createFeedInfoList_urls_ValidUrl (feedInfoTuples : list FeedInfoTuple) :
  well_typed feedInfoTuples = true ->
  exists feedInfoList,
    createFeedInfoList feedInfoTuples = Normal feedInfoList
    /\ Forall (fun fi => matchb ValidUrl (url fi) = true) feedInfoList.
Proof.
  intros Hwt. exists (List.map feedInfo_of feedInfoTuples).
  split; [apply createFeedInfoList_map|].
  induction feedInfoTuples as [|[lb u] ts IH]; simpl.
  - constructor.
  - simpl in Hwt. apply andb_true_iff in Hwt as [Hu Hts].
    constructor; [exact Hu | now apply IH].
Qed.

Lemma createFeedInfoList_urls_ValidUrl_witness :
  well_typed Heap.sample_tuples = true
  /\ exists feedInfoList,
       createFeedInfoList Heap.sample_tuples = Normal feedInfoList
       /\ Forall (fun fi => matchb ValidUrl (url fi) = true) feedInfoList.
Proof.
  assert (H : well_typed Heap.sample_tuples = true) by (vm_compute; reflexivity).
  split; [exact H|].
  apply (createFeedInfoList_urls_ValidUrl Heap.sample_tuples H).
Defined.

(** X4.  Distinct labels stay distinct: when no label occurs twice in the
    input, no label occurs twice in the result, and no record does. *)
Theorem createFeedInfoList_labels_NoDup (feedInfoTuples : list FeedInfoTuple) :
  NoDup (List.map fst feedInfoTuples) ->
  exists feedInfoList,
    createFeedInfoList feedInfoTuples = Normal feedInfoList
    /\ List.map label feedInfoList = List.map fst feedInfoTuples
    /\ NoDup (List.map label feedInfoList)
    /\ NoDup feedInfoList.
Proof.
  intros Hnd. exists (List.map feedInfo_of feedInfoTuples).
  split; [apply createFeedInfoList_map|].
  assert (E : List.map label (List.map feedInfo_of feedInfoTuples)
              = List.map fst feedInfoTuples).
  { rewrite List.map_map. apply List.map_ext. reflexivity. }
  split; [exact E|]. rewrite E. split; [exact Hnd|].
  apply (NoDup_fmap_1 label). change (NoDup (List.map label (List.map feedInfo_of feedInfoTuples))).
  now rewrite E.
Qed.

Lemma createFeedInfoList_labels_NoDup_witness :
  NoDup (List.map fst Heap.sample_tuples)
  /\ exists feedInfoList,
       createFeedInfoList Heap.sample_tuples = Normal feedInfoList
       /\ NoDup (List.map label feedInfoList).
Proof.
  assert (H : NoDup (List.map fst Heap.sample_tuples)).
  { apply (bool_decide_unpack _). vm_compute. exact I. }
  split; [exact H|].
  destruct (createFeedInfoList_labels_NoDup Heap.sample_tuples H)
    as (l & Hl & _ & Hnd & _).
  exists l. split; [exact Hl | exact Hnd].
Defined.

(** ** The type [ValidUrl] *)


(** X6.  The type is closed under extension: whatever is appended to a
    string of type [ValidUrl], a path, a query or anything else, the
    result is of the type again. *)
Theorem ValidUrl_append (s t : jsstring) :
  matchb ValidUrl s = true -> matchb ValidUrl (s ++ t) = true.
Proof.
  rewrite !matchb_Matches, !ValidUrl_shape.
  intros (scheme & a & b & Hs & ->).
  exists scheme, a, (b ++ t). split; [exact Hs|].
  now rewrite <- !app_assoc.
Qed.

Lemma ValidUrl_append_witness :
  matchb ValidUrl (js "https://qiita.com") = true
  /\ matchb ValidUrl (js "https://qiita.com" ++ js "/tags/AI/feed") = true.
Proof.
  assert (H : matchb ValidUrl (js "https://qiita.com") = true)
    by (vm_compute; reflexivity).
  split; [exact H|].
  apply (ValidUrl_append _ _ H).
Defined.

(** ** The exported registry *)

(** X7.  In the exported registry no label occurs twice, as the comment
    above it asks, no url occurs twice, and every url is of type
    [ValidUrl]. *)
Theorem FEED_INFO_LIST_distinct :
  exists feedInfoList,
    FEED_INFO_LIST = Normal feedInfoList
    /\ NoDup (List.map label feedInfoList)
    /\ NoDup (List.map url feedInfoList)
    /\ Forall (fun fi => matchb ValidUrl (url fi) = true) feedInfoList.
Proof.
  unfold FEED_INFO_LIST. rewrite createFeedInfoList_map.
  eexists. split; [reflexivity|].
  split; [|split].
  - apply (bool_decide_unpack _). vm_compute. exact I.
  - apply (bool_decide_unpack _). vm_compute. exact I.
  - apply (bool_decide_unpack _). vm_compute. exact I.
Qed.

(** ** Identity of the objects of a call *)

Section Identity.

Implicit Types (h : gmap Heap.loc Heap.object) (arr out l t : Heap.loc).

Local Abbreviation body out :=
  (fun t =>
     Heap.mbind (Heap.destructure t) (fun tuple =>
       let '(label, url) := tuple in
       Heap.mbind (Heap.alloc (Heap.Info {| label := label; url := url |}))
         (fun o => Heap.push out o))).

(** The records the loop appends are at locations unused before it, each
    at one of its own. *)
Lemma for_of_new_records (rest : list Heap.loc) :
  forall (ts : list FeedInfoTuple) (fuel : nat) h arr out
         (visited done : list Heap.loc),
    arr <> out ->
    h !! arr = Some (Heap.Array (visited ++ rest)) ->
    h !! out = Some (Heap.Array done) ->
    Forall2 (fun l tu => Heap.tuple_at h l = Some tu) rest ts ->
    length rest < fuel ->
    exists h' (news : list Heap.loc),
      Heap.for_of fuel arr (length visited) (body out) h
      = Some (Normal tt, h')
      /\ h' !! out = Some (Heap.Array (done ++ news))
      /\ NoDup news
      /\ (forall l, l ∈ news -> h !! l = None)
      /\ length news = length rest.
Proof.
  induction rest as [|t rest IH];
    intros ts fuel h arr out visited done Hne Harr Hout HT Hfuel;
    (destruct fuel as [|fuel]; [simpl in Hfuel; lia|]);
    cbn [Heap.for_of];
    rewrite (mbind_normal _ _ _ _ _ (next_array _ _ _ _ Harr)).
  - rewrite app_nil_r, (lookup_ge_None_2 visited) by lia.
    exists h, []. rewrite app_nil_r.
    split; [reflexivity|]. split; [exact Hout|]. split; [constructor|].
    split; [|reflexivity]. intros l Hl. now apply elem_of_nil in Hl.
  - apply Forall2_cons_inv_l in HT as ([lb u] & ts' & Ht & HT & ->).
    rewrite (list_lookup_middle visited rest t _ eq_refl).
    rewrite (mbind_normal _ _ _ _ _ (body_step _ _ _ _ _ _ Hout Ht)).
    set (l0 := fresh (dom h)).
    set (fi := {| label := lb; url := u |}).
    set (h2 := <[out := Heap.Array (done ++ [l0])]> (<[l0 := Heap.Info fi]> h)).
    assert (Hpres : forall l o, l <> out -> h !! l = Some o -> h2 !! l = Some o)
      by (intros; now apply step_preserved).
    assert (Hl0 : l0 <> out).
    { intros E. symmetry in E. revert E. eapply fresh_ne, Hout. }
    assert (Hh2l0 : h2 !! l0 = Some (Heap.Info fi)).
    { unfold h2. rewrite lookup_insert_ne by congruence. apply lookup_insert_eq. }
    destruct (IH ts' fuel h2 arr out (visited ++ [t]) (done ++ [l0]))
      as (h' & news & Hrun & Hout' & Hnd & Hfresh & Hlen).
    + exact Hne.
    + rewrite <- app_assoc. simpl. now apply Hpres.
    + unfold h2. apply lookup_insert_eq.
    + eapply Forall2_impl; [exact HT|]. intros l tu.
      now apply (tuple_at_preserved h h2 out done).
    + simpl in Hfuel. lia.
    + exists h', (l0 :: news).
      rewrite length_app, Nat.add_1_r in Hrun.
      rewrite <- app_assoc in Hout'. simpl in Hout'.
      split; [exact Hrun|]. split; [exact Hout'|]. split; [|split].
      * apply NoDup_cons. split; [|exact Hnd].
        intros Hin. apply Hfresh in Hin. congruence.
      * intros l Hl. apply elem_of_cons in Hl as [->|Hl]; [apply fresh_unused|].
        apply Hfresh in Hl. destruct (h !! l) as [o|] eqn:E; [|reflexivity].
        destruct (decide (l = out)) as [->|Hlo].
        -- unfold h2 in Hl. rewrite lookup_insert_eq in Hl. discriminate.
        -- rewrite (Hpres l o Hlo E) in Hl. discriminate.
      * simpl. now rewrite Hlen.
Qed.

Lemma tuples_at_preserved h h' arr (ts : list FeedInfoTuple) :
  Heap.preserved h h' ->
  Heap.tuples_at h arr = Some ts -> Heap.tuples_at h' arr = Some ts.
Proof.
  intros Hpres. unfold Heap.tuples_at.
  destruct (h !! arr) as [[| |elems]|] eqn:Harr; try discriminate.
  rewrite (Hpres _ _ Harr). rewrite !mapM_Some.
  intros HT. eapply Forall2_impl; [exact HT|]. intros l tu. unfold Heap.tuple_at.
  destruct (h !! l) as [o|] eqn:E; [|discriminate].
  now rewrite (Hpres _ _ E).
Qed.

Lemma infos_at_preserved h h' out (infos : list FeedInfo) :
  Heap.preserved h h' ->
  Heap.infos_at h out = Some infos -> Heap.infos_at h' out = Some infos.
Proof.
  intros Hpres. unfold Heap.infos_at.
  destruct (h !! out) as [[| |elems]|] eqn:Hout; try discriminate.
  rewrite (Hpres _ _ Hout). rewrite !mapM_Some.
  intros HI. eapply Forall2_impl; [exact HI|]. intros l fi. unfold Heap.info_at.
  destruct (h !! l) as [o|] eqn:E; [|discriminate].
  now rewrite (Hpres _ _ E).
Qed.

(** The call and the objects it makes: the result array and one record
    per tuple, all at locations unused before the call. *)
Lemma createFeedInfoList_allocates (fuel : nat) h arr (ts : list FeedInfoTuple) :
  Heap.tuples_at h arr = Some ts ->
  length ts < fuel ->
  exists out h' (elems : list Heap.loc),
    Heap.createFeedInfoList fuel arr h = Some (Normal out, h')
    /\ Heap.infos_at h' out = Some (List.map feedInfo_of ts)
    /\ Heap.only_allocates h h' out
    /\ h' !! out = Some (Heap.Array elems)
    /\ NoDup elems
    /\ (forall l, l ∈ elems -> h !! l = None /\ l <> out)
    /\ length elems = length ts.
Proof.
  intros HT Hfuel.
  destruct (createFeedInfoList_on_store fuel h arr ts HT Hfuel)
    as (out & h' & Hrun & Hres & Hpure).
  exists out, h'. revert HT. unfold Heap.tuples_at.
  destruct (h !! arr) as [[| |es]|] eqn:Harr; try discriminate.
  intros HT. apply mapM_Some in HT.
  pose proof (Forall2_length _ _ _ HT) as Hlen.
  set (out0 := fresh (dom h)).
  set (h1 := <[out0 := Heap.Array []]> h).
  assert (Harr_out : arr <> out0) by (eapply fresh_ne, Harr).
  destruct (for_of_new_records es ts fuel h1 arr out0 [] [])
    as (h0' & news & Hrun0 & Hout0 & Hnd & Hfresh & Hlen0).
  - exact Harr_out.
  - unfold h1. now rewrite lookup_insert_ne by congruence.
  - unfold h1. apply lookup_insert_eq.
  - eapply Forall2_impl; [exact HT|]. intros l tu. apply tuple_at_alloc.
  - lia.
  - assert (Hrun' : Heap.createFeedInfoList fuel arr h = Some (Normal out0, h0')).
    { unfold Heap.createFeedInfoList, Heap.alloc.
      unfold Heap.mbind at 1. cbv zeta. fold out0. fold h1.
      simpl in Hrun0. now rewrite (mbind_normal _ _ _ _ _ Hrun0). }
    rewrite Hrun in Hrun'. injection Hrun' as -> ->.
    exists news. simpl in Hout0.
    split; [exact Hrun|]. split; [exact Hres|]. split; [exact Hpure|].
    split; [exact Hout0|]. split; [exact Hnd|]. split; [|lia].
    intros l Hl. apply Hfresh in Hl. unfold h1 in Hl.
    destruct (decide (l = out0)) as [->|Hlo].
    + rewrite lookup_insert_eq in Hl. discriminate.
    + rewrite lookup_insert_ne in Hl by congruence. now split.
Qed.

End Identity.



(** X9.  Two calls on the same argument, one after the other, give two
    different arrays with no record in common, both standing for the same
    list of records; the second call leaves the result of the first, and
    the argument, as they were. *)
Theorem createFeedInfoList_twice
    (fuel : nat) (h : gmap Heap.loc Heap.object) (arr : Heap.loc)
    (ts : list FeedInfoTuple) :
  Heap.tuples_at h arr = Some ts ->
  length ts < fuel ->
  exists out1 out2 h2 (elems1 elems2 : list Heap.loc),
    Heap.mbind (Heap.createFeedInfoList fuel arr) (fun a =>
      Heap.mbind (Heap.createFeedInfoList fuel arr) (fun b =>
        Heap.ret (a, b))) h
    = Some (Normal (out1, out2), h2)
    /\ out1 <> out2
    /\ Heap.infos_at h2 out1 = Some (List.map feedInfo_of ts)
    /\ Heap.infos_at h2 out2 = Some (List.map feedInfo_of ts)
    /\ h2 !! out1 = Some (Heap.Array elems1)
    /\ h2 !! out2 = Some (Heap.Array elems2)
    /\ (forall l, l ∈ elems1 -> l ∉ elems2)
    /\ Heap.tuples_at h2 arr = Some ts.
Proof.
  intros HT Hfuel.
  destruct (createFeedInfoList_allocates fuel h arr ts HT Hfuel)
    as (out1 & h1 & elems1 & Hrun1 & Hres1 & (Hpres1 & _ & _) & Hout1 & _).
  pose proof (tuples_at_preserved h h1 arr ts Hpres1 HT) as HT1.
  destruct (createFeedInfoList_allocates fuel h1 arr ts HT1 Hfuel)
    as (out2 & h2 & elems2 & Hrun2 & Hres2 & (Hpres2 & Hout2 & _) & Hout2'
        & _ & Hfresh2 & _).
  exists out1, out2, h2, elems1, elems2.
  split.
  { rewrite (mbind_normal _ _ _ _ _ Hrun1).
    now rewrite (mbind_normal _ _ _ _ _ Hrun2). }
  split; [intros ->; congruence|].
  split; [now apply (infos_at_preserved h1 h2)|].
  split; [exact Hres2|].
  split; [now apply Hpres2|].
  split; [exact Hout2'|].
  split; [|now apply (tuples_at_preserved h1 h2)].
  intros l Hl1 Hl2. apply Hfresh2 in Hl2 as [Hl2 _].
  unfold Heap.infos_at in Hres1. rewrite Hout1 in Hres1.
  apply mapM_Some in Hres1.
  apply list_elem_of_lookup in Hl1 as [i Hi].
  destruct (Forall2_lookup_l _ _ _ _ _ Hres1 Hi) as (fi & _ & Hfi).
  unfold Heap.info_at in Hfi. rewrite Hl2 in Hfi. discriminate.
Qed.

Lemma createFeedInfoList_twice_witness :
  Heap.tuples_at Heap.other_heap 2%positive = Some Heap.sample_tuples
  /\ length Heap.sample_tuples < 4
  /\ exists out1 out2 h2,
       Heap.mbind (Heap.createFeedInfoList 4 2%positive) (fun a =>
         Heap.mbind (Heap.createFeedInfoList 4 2%positive) (fun b =>
           Heap.ret (a, b))) Heap.other_heap
       = Some (Normal (out1, out2), h2)
       /\ out1 <> out2.
Proof.
  assert (H1 : Heap.tuples_at Heap.other_heap 2%positive
               = Some Heap.sample_tuples) by (vm_compute; reflexivity).
  assert (Hf : length Heap.sample_tuples < 4) by (vm_compute; lia).
  split; [exact H1|]. split; [exact Hf|].
  destruct (createFeedInfoList_twice _ _ _ _ H1 Hf)
    as (out1 & out2 & h2 & elems1 & elems2 & Hrun & Hne & _).
  exists out1, out2, h2. split; assumption.
Defined.
